(** * find-initials.py: the scanner for leftover [initial={{ ... }}] props

    A shallow embedding of [find-initials.py] and the properties of its
    scan and of its report.

    The script lists the [*.tsx] files of one directory, reads each one,
    runs [re.finditer(r'initial=\{\{[^}]+\}\}', content, ...)] over the text,
    formats one record per match and prints a report.

    Modelling choices:
    - a Python [str] is a [list ascii] (one [ascii] per character);
      offsets, lengths and line numbers are [nat];
    - the regular expression engine is embedded for the fragment the
      pattern uses: literal characters, a negated one-character class and
      the greedy [+], matched by backtracking as [re] does;
    - the directory is the sequence of its entries in listing order, each
      with the result of opening and reading it;
    - an exception that nothing catches ends the run: the run's outcome
      records what reached standard output, the exception and the exit
      status. *)

From Stdlib Require Import Ascii String DecimalString.
From Stdlib Require Import List Arith Lia Bool Sorted.
Import ListNotations.

Local Open Scope list_scope.

(** ** Text *)

Definition text := list ascii.

(** A literal of the source, as text. *)
Definition str (s : string) : text := list_ascii_of_string s.
Arguments str s%_string.

Definition newline : ascii := "010"%char.
Definition open_brace : ascii := "{"%char.
Definition close_brace : ascii := "}"%char.

(** [s.count('\n')] *)
Fixpoint count (c : ascii) (s : text) : nat :=
  match s with
  | [] => 0
  | d :: s' => (if Ascii.eqb d c then 1 else 0) + count c s'
  end.

(** [str(n)] for a non-negative integer. *)
Definition str_of_nat (n : nat) : text :=
  str (NilEmpty.string_of_uint (Nat.to_uint n)).

(** ** The regular expression engine, for the fragment the pattern uses *)

Module Re.

(** One character position of a pattern: a literal character, or the
    negated class [[^c]]. *)
Inductive atom : Type :=
| Chr (c : ascii)
| NotChr (c : ascii).

(** An atom taken once, or repeated by the greedy [+]. *)
Inductive piece : Type :=
| One (a : atom)
| Plus (a : atom).

Definition regex := list piece.

Definition atom_matches (a : atom) (c : ascii) : bool :=
  match a with
  | Chr d => Ascii.eqb c d
  | NotChr d => negb (Ascii.eqb c d)
  end.

(** [a+] followed by the continuation [k]: greedy, so a longer run is tried
    first, and the engine backtracks to a shorter one when the continuation
    fails after it. The result is the number of characters consumed. *)
Fixpoint match_plus (a : atom) (k : text -> option nat) (s : text) : option nat :=
  match s with
  | [] => None
  | c :: s' =>
      if atom_matches a c then
        match match_plus a k s' with
        | Some n => Some (S n)
        | None => option_map S (k s')
        end
      else None
  end.

(** Match [r] at the start of [s]: the length of the match, if any. *)
Fixpoint match_here (r : regex) (s : text) : option nat :=
  match r with
  | [] => Some 0
  | One a :: r' =>
      match s with
      | [] => None
      | c :: s' => if atom_matches a c then option_map S (match_here r' s') else None
      end
  | Plus a :: r' => match_plus a (match_here r') s
  end.

(** The search loop shared by [finditer] and by the matcher written from the
    specification's words: candidate start offsets are tried from left to
    right; after a match the search resumes at the end of that match
    ([skip] counts the characters of the current match still to pass), so
    matches do not overlap. [pos] is the offset of [s] in the whole text.
    A match is reported as its start offset and its text
    ([match.start()], [match.group(0)]). *)
Fixpoint search (m : text -> option nat) (skip pos : nat) (s : text)
  : list (nat * text) :=
  match s with
  | [] =>
      match skip, m [] with
      | 0, Some _ => [(pos, [])]
      | _, _ => []
      end
  | _ :: s' =>
      match skip with
      | S k => search m k (S pos) s'
      | 0 =>
          match m s with
          | Some n => (pos, firstn n s) :: search m (n - 1) (S pos) s'
          | None => search m 0 (S pos) s'
          end
      end
  end.

(** [re.finditer(r, s)] *)
Definition finditer (r : regex) (s : text) : list (nat * text) :=
  search (match_here r) 0 0 s.

(** A pattern made of literal characters only. *)
Definition lit (s : text) : regex := map (fun c => One (Chr c)) s.

End Re.

(** ** The script *)

(** [r'initial=\{\{[^}]+\}\}']. The flags [re.MULTILINE | re.DOTALL] change
    the meaning of [^], [$] and [.] only, none of which the pattern has. *)
Definition opening : text := str "initial={{".
Definition closing : text := str "}}".

Definition pattern : Re.regex :=
  Re.lit opening ++ [Re.Plus (Re.NotChr close_brace)] ++ Re.lit closing.

Definition matches_of (content : text) : list (nat * text) :=
  Re.finditer pattern content.

(** [content[:match.start()].count('\n') + 1] *)
Definition line_num (content : text) (start : nat) : nat :=
  count newline (firstn start content) + 1.

(** [match.group(0)[:80]] *)
Definition snippet (matched : text) : text := firstn 80 matched.

(** [f"{tsx_file.name}:{line_num}: {snippet}"] *)
Definition record (name content : text) (m : nat * text) : text :=
  name ++ str ":" ++ str_of_nat (line_num content (fst m))
       ++ str ": " ++ snippet (snd m).

(** What can go wrong when a file is opened and read. *)
Inductive error : Type :=
| OSError
| UnicodeDecodeError.

Inductive read_result : Type :=
| Content (content : text)
| Raises (e : error).

(** A directory entry: its name and what [open(..., 'r')] followed by
    [f.read()] gives for it. *)
Record entry : Type := Entry { name : text; read : read_result }.

(** The directory, in the order the operating system lists it. *)
Definition directory := list entry.

(** Does the last component match [*.tsx]? *)
Definition ends_with (suffix s : text) : bool :=
  if list_eq_dec ascii_dec (skipn (length s - length suffix) s) suffix
  then true else false.

(** [components_dir.glob('*.tsx')]: not recursive, in listing order. *)
Definition glob (d : directory) : list entry :=
  filter (fun e => ends_with (str ".tsx") (name e)) d.

(** The body of the outer [for]: one file appended to [results], or the
    exception of the read. *)
Definition scan_file (results : list text) (e : entry) : error + list text :=
  match read e with
  | Raises err => inl err
  | Content content =>
      inr (fold_left (fun acc m => acc ++ [record (name e) content m])
                     (matches_of content) results)
  end.

(** The outer [for] over the files. *)
Fixpoint scan (results : list text) (files : list entry) : error + list text :=
  match files with
  | [] => inr results
  | e :: files' =>
      match scan_file results e with
      | inl err => inl err
      | inr results' => scan results' files'
      end
  end.

(** The literal part of an f-string: [{{] stands for [{] and [}}] for [}]. *)
Fixpoint fstring_literal (s : text) : text :=
  match s with
  | c :: ((d :: s'') as s') =>
      if (Ascii.eqb c open_brace && Ascii.eqb d open_brace)
         || (Ascii.eqb c close_brace && Ascii.eqb d close_brace)
      then c :: fstring_literal s''
      else c :: fstring_literal s'
  | _ => s
  end.

(** [print(x)] writes [x] and a newline. *)
Definition print (x : text) : text := x ++ [newline].

(** The report: what the [if results: ... else: ...] writes. *)
Definition report (results : list text) : text :=
  match results with
  | [] => print (str "No remaining initial={{}} patterns found!")
  | _ :: _ =>
      print (fstring_literal (str "Found ")
             ++ str_of_nat (length results)
             ++ fstring_literal (str " remaining initial={{}} patterns:" ++ [newline]))
      ++ concat (map print results)
  end.

(** How a run ends: what it wrote to standard output, the exception nothing
    caught (if any) and the exit status of the interpreter. *)
Record outcome : Type :=
  Outcome { stdout : text; uncaught : option error; exit_status : nat }.

(** The whole script. *)
Definition main (d : directory) : outcome :=
  match scan [] (glob d) with
  | inl err => Outcome [] (Some err) 1
  | inr results => Outcome (report results) None 0
  end.

(** ** The pattern, read from the specification's words *)

(** A first [}}] in [s]: the length of the shortest prefix of [s] that ends
    with it. *)
Fixpoint up_to_first_closing (s : text) : option nat :=
  match s with
  | [] => None
  | c :: s' =>
      match s' with
      | [] => None
      | d :: _ =>
          if Ascii.eqb c close_brace && Ascii.eqb d close_brace then Some 2
          else option_map S (up_to_first_closing s')
      end
  end.

Definition starts_with (prefix s : text) : bool :=
  if list_eq_dec ascii_dec (firstn (length prefix) s) prefix then true else false.

(** Written from the specification's words, to compare with [pattern]:
    "[initial={{] followed by any characters (including newlines) up to the
    first [}}]", "the shortest span from [initial={{] to the nearest
    following [}}]". *)
Definition spec_match_here (s : text) : option nat :=
  if starts_with opening s
  then option_map (fun n => length opening + n)
                  (up_to_first_closing (skipn (length opening) s))
  else None.

(** All the non-overlapping matches of that reading, from left to right. *)
Definition spec_matches_of (content : text) : list (nat * text) :=
  Re.search spec_match_here 0 0 content.

(** ** What a match of [pattern] looks like *)

(** The body of a match: one character or more, none of them [}]. *)
Definition body_ok (body : text) : Prop :=
  body <> [] /\ Forall (fun c => c <> close_brace) body.

(** Two matches in report order do not overlap. *)
Definition before (a b : nat * text) : Prop :=
  fst a + length (snd a) <= fst b.

(** The scanner reports the matches of the specification's reading. *)
Definition reports_every_span (content : text) : Prop :=
  matches_of content = spec_matches_of content.

(** ** Lines *)

(** [s.split('\n')]: the lines of a text. *)
Fixpoint split_lines (s : text) : list text :=
  match s with
  | [] => [[]]
  | c :: s' =>
      if Ascii.eqb c newline then [] :: split_lines s'
      else match split_lines s' with
           | [] => [[c]]
           | l :: ls => (c :: l) :: ls
           end
  end.

(** The offset at which the line after [above] starts: every line above
    takes its characters and one newline. *)
Fixpoint offset_after (above : list text) : nat :=
  match above with
  | [] => 0
  | l :: ls => length l + 1 + offset_after ls
  end.

(** ** Records and reports, for the statements *)

(** The records of one file that was read. *)
Definition records_of (e : entry) : list text :=
  match read e with
  | Content content => map (record (name e) content) (matches_of content)
  | Raises _ => []
  end.

Definition readable (e : entry) : Prop := exists content, read e = Content content.

(** Written from the specification's words, to compare with [report]: the
    header [Found <N> remaining initial={{}} patterns:], a blank line, then
    one line per record. *)
Definition spec_report (results : list text) : text :=
  print (str "Found " ++ str_of_nat (length results)
         ++ str " remaining initial={{}} patterns:")
  ++ print []
  ++ concat (map print results).

(** ** Sample inputs *)

(** The multi-line usage of the specification, inside a component. *)
Definition multi_line : text :=
  str "<motion.div
  initial={{
  x: 1,
  y: 2
}}
/>".

(** A body with a nested object: a [}] before the closing [}}]. *)
Definition nested_body : text := str "initial={{a}b}}".

Definition one_usage : directory :=
  [Entry (str "a.tsx") (Content (str "initial={{a}}"))].

Definition two_files : directory :=
  [Entry (str "b.tsx") (Content (str "initial={{b}} initial={{c}}"));
   Entry (str "notes.txt") (Content (str "initial={{n}}"));
   Entry (str "a.tsx") (Content multi_line)].

Definition undecodable_file : directory :=
  [Entry (str "a.tsx") (Content (str "initial={{a}}"));
   Entry (str "b.tsx") (Raises UnicodeDecodeError)].

Definition no_usage : directory :=
  [Entry (str "a.tsx") (Content (str "<div initial={{}} />"));
   Entry (str "b.txt") (Content (str "initial={{a}}"))].

(** A usage of 112 characters. *)
Definition long_usage : text := opening ++ repeat "a"%char 100 ++ closing.

(** ** Offsets and counts, for the statements *)

(** A match of a later part of the text, seen from [k] characters before. *)
Definition shift (k : nat) (m : nat * text) : nat * text := (k + fst m, snd m).

(** The number of matches in one file that was read. *)
Definition match_count (e : entry) : nat :=
  match read e with
  | Content content => length (matches_of content)
  | Raises _ => 0
  end.

(** Two usages, then a third after a usage with an empty body. *)
Definition three_usages : text :=
  str "initial={{a}}
initial={{b}} initial={{}}

initial={{c}}".

(** ** The engine on literals and on the negated class *)

Lemma match_here_lit_app (l : text) (r : Re.regex) (s : text) (n : nat) :
  Re.match_here (Re.lit l ++ r) s = Some n <->
  exists s' n', s = l ++ s' /\ Re.match_here r s' = Some n' /\ n = length l + n'.
Proof.
  revert s n. induction l as [|c l IH]; intros s n; simpl.
  - split.
    + intros H. exists s, n. auto.
    + intros (s' & n' & -> & H & ->). exact H.
  - destruct s as [|d s].
    + split; [discriminate|]. intros (s' & n' & H & _). discriminate.
    + destruct (Ascii.eqb_spec d c) as [->|Hdc].
      * destruct (Re.match_here (Re.lit l ++ r) s) as [k|] eqn:E; simpl.
        -- apply IH in E. destruct E as (s' & n' & -> & E & ->).
           split.
           ++ intros [= <-]. exists s', n'. auto.
           ++ intros (s'' & n'' & [= <-%app_inv_head] & E' & ->).
              rewrite E in E'. injection E' as <-. reflexivity.
        -- split; [discriminate|].
           intros (s' & n' & [= ->] & E' & ->).
           assert (Re.match_here (Re.lit l ++ r) (l ++ s') = Some (length l + n')) as E''
             by (apply IH; eauto).
           rewrite E'' in E. discriminate.
      * split; [discriminate|].
        intros (s' & n' & [= -> _] & _). contradiction.
Qed.

Lemma match_here_lit (l s : text) (n : nat) :
  Re.match_here (Re.lit l) s = Some n <->
  exists rest, s = l ++ rest /\ n = length l.
Proof.
  rewrite <- (app_nil_r (Re.lit l)), match_here_lit_app. simpl. split.
  - intros (s' & n' & -> & [= <-] & ->). exists s'. split; [reflexivity | lia].
  - intros (rest & -> & ->). exists rest, 0. repeat split. lia.
Qed.

Lemma body_ok_cons (c : ascii) (body : text) :
  body_ok (c :: body) <-> c <> close_brace /\ (body = [] \/ body_ok body).
Proof.
  unfold body_ok. split.
  - intros [_ H]. inversion H; subst. split; [assumption|].
    destruct body; [left; reflexivity | right; split; [discriminate | assumption]].
  - intros [Hc [-> | [_ H]]]; (split; [discriminate | constructor; auto]).
Qed.

(** [[^}]+\}\}] takes the whole run of characters other than [}], and
    matches when that run is not empty and [}}] follows it. *)
Lemma match_plus_body (s : text) (n : nat) :
  Re.match_plus (Re.NotChr close_brace) (Re.match_here (Re.lit closing)) s = Some n <->
  exists body rest, body_ok body /\ s = body ++ closing ++ rest /\ n = length body + 2.
Proof.
  revert n. induction s as [|c s IH]; intros n; cbn [Re.match_plus Re.atom_matches].
  - split; [discriminate|].
    intros (body & rest & [Hne _] & H & _). destruct body; [congruence | discriminate].
  - destruct (Ascii.eqb_spec c close_brace) as [->|Hc]; cbn [negb].
    + split; [discriminate|].
      intros (body & rest & Hb & H & _). destruct body as [|b body].
      * destruct Hb as [Hne _]. congruence.
      * injection H as <- _. apply body_ok_cons in Hb. destruct Hb as [Hb _]. congruence.
    + destruct (Re.match_plus _ _ s) as [k|] eqn:E.
      * destruct (proj1 (IH k) eq_refl) as (body & rest & Hb & -> & ->).
        split.
        -- intros [= <-]. exists (c :: body), rest. split; [|split; reflexivity].
           apply body_ok_cons. auto.
        -- intros (body' & rest' & Hb' & H & ->). destruct body' as [|b body'].
           { destruct Hb' as [Hne _]. congruence. }
           injection H as <- H. apply body_ok_cons in Hb'. destruct Hb' as [_ [-> | Hb']].
           ++ simpl in H. destruct body as [|b body]; [destruct Hb; congruence|].
              apply body_ok_cons in Hb. destruct Hb as [Hb _].
              injection H as H _. contradiction.
           ++ assert (Some (length body + 2) = Some (length body' + 2)) as [= Hl].
              { apply IH. exists body', rest'. auto. }
              simpl. f_equal. lia.
      * destruct (Re.match_here (Re.lit closing) s) as [k|] eqn:Ek; cbn [option_map].
        -- apply match_here_lit in Ek. destruct Ek as (rest & -> & ->).
           split.
           ++ intros [= <-]. exists [c], rest. split; [|split; reflexivity].
              apply body_ok_cons. auto.
           ++ intros (body' & rest' & Hb' & H & ->). destruct body' as [|b body'].
              { destruct Hb' as [Hne _]. congruence. }
              injection H as <- H. apply body_ok_cons in Hb'.
              destruct Hb' as [_ [-> | Hb']]; [reflexivity|].
              assert (Re.match_plus (Re.NotChr close_brace)
                        (Re.match_here (Re.lit closing)) (closing ++ rest)
                      = Some (length body' + 2)) as E'.
              { apply IH. exists body', rest'. auto. }
              rewrite E' in E. discriminate.
        -- split; [discriminate|].
           intros (body' & rest' & Hb' & H & ->). destruct body' as [|b body'].
           { destruct Hb' as [Hne _]. congruence. }
           injection H as <- H. apply body_ok_cons in Hb'.
           destruct Hb' as [_ [-> | Hb']].
           ++ cbn [app] in H. subst s. cbn in Ek. discriminate.
           ++ assert (None = Some (length body' + 2)) as E'.
              { apply IH. exists body', rest'. auto. }
              discriminate.
Qed.

(** The pattern matches at the start of [s] exactly when [s] starts with
    [initial={{], a body and [}}]; the match is that span. *)
Lemma match_here_pattern (s : text) (n : nat) :
  Re.match_here pattern s = Some n <->
  exists body rest,
    body_ok body /\ s = opening ++ body ++ closing ++ rest
    /\ n = length (opening ++ body ++ closing).
Proof.
  unfold pattern. rewrite match_here_lit_app. simpl Re.match_here. split.
  - intros (s' & n' & -> & H & ->). apply match_plus_body in H.
    destruct H as (body & rest & Hb & -> & ->). exists body, rest.
    repeat split; try apply Hb. rewrite !length_app. reflexivity.
  - intros (body & rest & Hb & -> & ->). exists (body ++ closing ++ rest), (length body + 2).
    repeat split.
    + apply match_plus_body. exists body, rest. auto.
    + rewrite !length_app. reflexivity.
Qed.

(** ** The search loop *)

Section Search.

(** A matcher that never matches the empty text nor past the end. *)
Variable m : text -> option nat.
Hypothesis m_bounds : forall s n, m s = Some n -> 1 <= n <= length s.

(** Every reported match was found by [m] at its offset, at or after the
    point where the search resumed. *)
Lemma search_sound (s : text) : forall skip pos p t,
  In (p, t) (Re.search m skip pos s) ->
  exists k, p = pos + k /\ skip <= k
            /\ m (skipn k s) = Some (length t)
            /\ t = firstn (length t) (skipn k s).
Proof.
  induction s as [|c s IH]; intros skip pos p t Hin; cbn [Re.search] in Hin.
  - destruct skip; [|contradiction].
    destruct (m []) as [n|] eqn:E; [|contradiction].
    apply m_bounds in E. simpl in E. lia.
  - destruct skip as [|skip].
    + destruct (m (c :: s)) as [n|] eqn:E.
      * destruct Hin as [[= <- <-] | Hin].
        -- pose proof (m_bounds _ _ E) as Hn.
           assert (length (firstn n (c :: s)) = n) as Hl
             by (apply firstn_length_le; lia).
           exists 0. rewrite Hl. cbn [skipn]. repeat split; auto; lia.
        -- apply IH in Hin. destruct Hin as (k & -> & Hk & Hm & Ht).
           exists (S k). cbn [skipn]. repeat split; auto; lia.
      * apply IH in Hin. destruct Hin as (k & -> & Hk & Hm & Ht).
        exists (S k). cbn [skipn]. repeat split; auto; lia.
    + apply IH in Hin. destruct Hin as (k & -> & Hk & Hm & Ht).
      exists (S k). cbn [skipn]. repeat split; auto; lia.
Qed.

(** Every place where [m] matches, at or after the point where the search
    resumed, is reported, unless it lies inside a reported match that
    starts before it. *)
Lemma search_complete (s : text) : forall skip pos k n,
  skip <= k -> m (skipn k s) = Some n ->
  In (pos + k, firstn n (skipn k s)) (Re.search m skip pos s)
  \/ exists q u, In (q, u) (Re.search m skip pos s)
                 /\ q < pos + k < q + length u.
Proof.
  induction s as [|c s IH]; intros skip pos k n Hk Hm.
  - rewrite skipn_nil in Hm. apply m_bounds in Hm. simpl in Hm. lia.
  - cbn [Re.search]. destruct skip as [|skip].
    + destruct k as [|k].
      * cbn [skipn] in *. rewrite Hm. left. left. f_equal. lia.
      * cbn [skipn] in *. destruct (m (c :: s)) as [n0|] eqn:E.
        -- pose proof (m_bounds _ _ E) as Hn0.
           destruct (le_lt_dec (n0 - 1) k) as [Hle|Hlt].
           ++ destruct (IH (n0 - 1) (S pos) k n Hle Hm) as [H | (q & u & H & Hq)].
              ** left. right. replace (pos + S k) with (S pos + k) by lia. exact H.
              ** right. exists q, u. split; [right; exact H | lia].
           ++ right. exists pos, (firstn n0 (c :: s)). split; [left; reflexivity|].
              rewrite firstn_length_le by lia. lia.
        -- destruct (IH 0 (S pos) k n (Nat.le_0_l _) Hm) as [H | (q & u & H & Hq)].
           ++ left. replace (pos + S k) with (S pos + k) by lia. exact H.
           ++ right. exists q, u. split; [exact H | lia].
    + destruct k as [|k]; [lia|]. cbn [skipn] in *.
      destruct (IH skip (S pos) k n ltac:(lia) Hm) as [H | (q & u & H & Hq)].
      * left. replace (pos + S k) with (S pos + k) by lia. exact H.
      * right. exists q, u. split; [exact H | lia].
Qed.

(** Reported matches come in increasing offsets and do not overlap. *)
Lemma search_sorted (s : text) : forall skip pos,
  StronglySorted before (Re.search m skip pos s).
Proof.
  induction s as [|c s IH]; intros skip pos; cbn [Re.search].
  - destruct skip; [|constructor]. destruct (m []); repeat constructor.
  - destruct skip as [|skip]; [|apply IH].
    destruct (m (c :: s)) as [n|] eqn:E; [|apply IH].
    constructor; [apply IH|].
    apply Forall_forall. intros [q u] Hin.
    apply search_sound in Hin. destruct Hin as (k & -> & Hk & _).
    pose proof (m_bounds _ _ E) as Hn. unfold before. cbn [fst snd].
    rewrite firstn_length_le by lia. lia.
Qed.

End Search.

Lemma pattern_bounds (s : text) (n : nat) :
  Re.match_here pattern s = Some n -> 1 <= n <= length s.
Proof.
  intros H. apply match_here_pattern in H.
  destruct H as (body & rest & _ & -> & ->).
  rewrite !length_app. simpl. lia.
Qed.

(** ** The matches of one text *)

Lemma firstn_length_app {A : Type} (l1 l2 : list A) :
  firstn (length l1) (l1 ++ l2) = l1.
Proof.
  rewrite firstn_app, firstn_all, Nat.sub_diag, firstn_O. apply app_nil_r.
Qed.

(** A reported match is [initial={{], a body and [}}], and sits in the text
    at its offset. *)
Lemma matches_of_sound (content : text) (p : nat) (t : text) :
  In (p, t) (matches_of content) ->
  exists body rest,
    body_ok body /\ t = opening ++ body ++ closing
    /\ skipn p content = t ++ rest /\ p + length t <= length content.
Proof.
  intros Hin. apply (search_sound _ pattern_bounds) in Hin.
  destruct Hin as (k & -> & _ & Hm & Ht). cbn [Nat.add] in *.
  destruct (proj1 (match_here_pattern _ _) Hm) as (body & rest & Hb & Hs & Hl).
  assert (t = opening ++ body ++ closing) as ->.
  { rewrite Ht, Hl, Hs.
    replace (opening ++ body ++ closing ++ rest)
      with ((opening ++ body ++ closing) ++ rest) by (rewrite <- !app_assoc; reflexivity).
    apply firstn_length_app. }
  exists body, rest. repeat split; try apply Hb.
  - rewrite Hs, <- !app_assoc. reflexivity.
  - apply pattern_bounds in Hm. rewrite length_skipn in Hm. lia.
Qed.

Lemma matches_of_sorted (content : text) :
  StronglySorted before (matches_of content).
Proof. apply (search_sorted _ pattern_bounds). Qed.

Lemma matches_of_complete (content : text) (p : nat) (body rest : text) :
  body_ok body ->
  skipn p content = opening ++ body ++ closing ++ rest ->
  In (p, opening ++ body ++ closing) (matches_of content)
  \/ exists q u, In (q, u) (matches_of content) /\ q < p < q + length u.
Proof.
  intros Hb Hs.
  assert (Re.match_here pattern (skipn p content)
          = Some (length (opening ++ body ++ closing))) as Hm
    by (apply match_here_pattern; eauto).
  destruct (search_complete _ pattern_bounds content 0 0 p _ (Nat.le_0_l _) Hm)
    as [H | H]; cbn [Nat.add] in H; [left | right; exact H].
  replace (opening ++ body ++ closing)
    with (firstn (length (opening ++ body ++ closing)) (skipn p content)); [exact H|].
  rewrite Hs.
  replace (opening ++ body ++ closing ++ rest)
    with ((opening ++ body ++ closing) ++ rest) by (rewrite <- !app_assoc; reflexivity).
  apply firstn_length_app.
Qed.

(** The first [}}] after a run without [}] is the one right after it. *)
Lemma up_to_first_closing_body (body rest : text) :
  Forall (fun c => c <> close_brace) body ->
  up_to_first_closing (body ++ closing ++ rest) = Some (length body + 2).
Proof.
  induction 1 as [|b body Hb _ IH]; [reflexivity|].
  cbn [app up_to_first_closing length Nat.add].
  rewrite IH. destruct (Ascii.eqb_spec b close_brace) as [->|_]; [contradiction|].
  cbn [andb option_map].
  destruct (body ++ closing ++ rest) eqn:E; [|reflexivity].
  destruct body; discriminate.
Qed.

(** Where the pattern matches, the match is the span up to the nearest
    [}}]. *)
Lemma spec_match_here_of_match (body rest : text) :
  body_ok body ->
  spec_match_here (opening ++ body ++ closing ++ rest)
  = Some (length (opening ++ body ++ closing)).
Proof.
  intros [_ Hb]. unfold spec_match_here, starts_with.
  rewrite firstn_length_app.
  destruct (list_eq_dec ascii_dec opening opening) as [_|]; [|contradiction].
  rewrite skipn_app, skipn_all, Nat.sub_diag. cbn [app skipn].
  rewrite (up_to_first_closing_body _ _ Hb). cbn [option_map].
  rewrite !length_app. reflexivity.
Qed.

(** ** Lines and offsets *)

Lemma split_lines_line (w rest : text) :
  Forall (fun c => c <> newline) w ->
  exists l ls, split_lines rest = l :: ls /\ split_lines (w ++ rest) = (w ++ l) :: ls.
Proof.
  induction 1 as [|c w Hc _ IH].
  - destruct rest as [|c rest]; cbn [split_lines app]; [eauto|].
    destruct (Ascii.eqb c newline); [eauto|].
    destruct (split_lines rest); eauto.
  - destruct IH as (l & ls & Hr & Hw). exists l, ls. split; [exact Hr|].
    cbn [app split_lines]. rewrite Hw.
    destruct (Ascii.eqb_spec c newline); [contradiction | reflexivity].
Qed.

(** A word without newline that follows [pre] in a text lies on the line
    numbered by the newlines of [pre], at the column left after the lines
    above. *)
Lemma line_of_word (w rest : text) :
  Forall (fun c => c <> newline) w ->
  forall pre, exists above line below col,
    split_lines (pre ++ w ++ rest) = above ++ line :: below
    /\ count newline pre = length above
    /\ length pre = offset_after above + col
    /\ firstn (length w) (skipn col line) = w.
Proof.
  intros Hw. induction pre as [|c pre IH].
  - destruct (split_lines_line w rest Hw) as (l & ls & _ & H).
    exists [], (w ++ l), ls, 0. cbn [app skipn]. rewrite H.
    repeat split. apply firstn_length_app.
  - destruct IH as (above & line & below & col & Hs & Hc & Hl & Hf).
    cbn [app split_lines count length]. rewrite Hs.
    destruct (Ascii.eqb_spec c newline) as [_|_].
    + exists ([] :: above), line, below, col. cbn [app length offset_after].
      repeat split; auto; lia.
    + destruct above as [|a above]; cbn [app].
      * exists [], (c :: line), below, (S col). cbn [app skipn length offset_after] in *.
        repeat split; auto; lia.
      * exists ((c :: a) :: above), line, below, col.
        cbn [app length offset_after] in *. repeat split; auto; lia.
Qed.

Lemma opening_no_newline : Forall (fun c => c <> newline) opening.
Proof. repeat constructor; discriminate. Qed.

(** ** The scan of the directory *)

Lemma fold_left_append {A B : Type} (f : A -> B) (l : list A) : forall acc,
  fold_left (fun acc m => acc ++ [f m]) l acc = acc ++ map f l.
Proof.
  induction l as [|a l IH]; intros acc; cbn [fold_left map].
  - symmetry. apply app_nil_r.
  - rewrite IH, <- app_assoc. reflexivity.
Qed.

Lemma scan_file_readable (results : list text) (e : entry) :
  readable e -> scan_file results e = inr (results ++ records_of e).
Proof.
  intros [content H]. unfold scan_file, records_of. rewrite H.
  f_equal. apply fold_left_append.
Qed.

(** A scan that ends has read every file, and has appended the records of
    each file in turn. *)
Lemma scan_inr (files : list entry) : forall results results',
  scan results files = inr results' ->
  Forall readable files /\ results' = results ++ flat_map records_of files.
Proof.
  induction files as [|e files IH]; intros results results' H; cbn [scan] in H.
  - injection H as <-. split; [constructor | symmetry; apply app_nil_r].
  - destruct (read e) as [content|err] eqn:E.
    + assert (readable e) as He by (exists content; exact E).
      rewrite (scan_file_readable _ _ He) in H. apply IH in H.
      destruct H as [Hf ->]. split; [constructor; assumption|].
      cbn [flat_map]. rewrite app_assoc. reflexivity.
    + unfold scan_file in H. rewrite E in H. discriminate.
Qed.

Lemma scan_readable (files : list entry) : forall results,
  Forall readable files ->
  scan results files = inr (results ++ flat_map records_of files).
Proof.
  induction files as [|e files IH]; intros results H; cbn [scan flat_map].
  - rewrite app_nil_r. reflexivity.
  - inversion H as [|? ? He Hf]; subst.
    rewrite (scan_file_readable _ _ He), (IH _ Hf), app_assoc. reflexivity.
Qed.

(** A file that cannot be read ends the scan with an exception: the one of
    the first such file. *)
Lemma scan_raises (files : list entry) : forall results,
  Exists (fun e => exists err, read e = Raises err) files ->
  exists pre e post err,
    files = pre ++ e :: post /\ Forall readable pre
    /\ read e = Raises err /\ scan results files = inl err.
Proof.
  induction files as [|e files IH]; intros results H; [inversion H|].
  cbn [scan]. destruct (read e) as [content|err] eqn:E.
  - assert (readable e) as He by (exists content; exact E).
    rewrite (scan_file_readable _ _ He).
    inversion H as [? ? [err' He'] | ? ? Hex]; subst; [congruence|].
    destruct (IH (results ++ records_of e) Hex) as (pre & e' & post & err & -> & Hp & He' & Hs).
    exists (e :: pre), e', post, err. repeat split; auto.
  - exists [], e, files, err. unfold scan_file. rewrite E. repeat split; auto.
Qed.

Lemma length_snippet (t : text) : length (snippet t) = Nat.min 80 (length t).
Proof. apply length_firstn. Qed.

Lemma length_opening_body_closing (body : text) :
  length (opening ++ body ++ closing) = 12 + length body.
Proof. rewrite !length_app. simpl. lia. Qed.

(** ** The claims *)

(** C1, as stated, fails: on [initial={{a}b}}] the reading "[initial={{]
    followed by any characters up to the first [}}]" has one match, the
    whole text, and the scanner reports none, because [[^}]+] stops at the
    first [}] and a lone [}] is not [}}]. *)
Lemma nested_body_not_reported : ~ reports_every_span nested_body.
Proof. unfold reports_every_span. vm_compute. discriminate. Qed.

(** C1, amended: for every text, every reported match is [initial={{], then
    one or more characters other than [}] (newlines included), then [}}]; it
    sits in the text at its offset and is the shortest span from that
    [initial={{] to the nearest following [}}]. Every such span of the text
    is reported, unless it starts inside a match reported before it; and
    the reported matches do not overlap. *)
Theorem matches_are_brace_free_spans (content : text) :
  (forall p t, In (p, t) (matches_of content) ->
     exists body rest,
       body_ok body /\ t = opening ++ body ++ closing
       /\ content = firstn p content ++ t ++ rest
       /\ length (firstn p content) = p
       /\ spec_match_here (skipn p content) = Some (length t))
  /\ (forall p body rest,
        body_ok body ->
        skipn p content = opening ++ body ++ closing ++ rest ->
        In (p, opening ++ body ++ closing) (matches_of content)
        \/ exists q u, In (q, u) (matches_of content) /\ q < p < q + length u)
  /\ StronglySorted before (matches_of content).
Proof.
  split; [|split].
  - intros p t Hin.
    destruct (matches_of_sound _ _ _ Hin) as (body & rest & Hb & -> & Hs & Hl).
    exists body, rest. repeat split; try apply Hb.
    + rewrite <- Hs. symmetry. apply firstn_skipn.
    + apply firstn_length_le. lia.
    + rewrite Hs, <- !app_assoc. apply spec_match_here_of_match. exact Hb.
  - intros p body rest. apply matches_of_complete.
  - apply matches_of_sorted.
Qed.

Lemma matches_are_brace_free_spans_multi_line :
  In (14, skipn 14 (firstn 42 multi_line)) (matches_of multi_line)
  /\ exists body rest,
       body_ok body /\ skipn 14 (firstn 42 multi_line) = opening ++ body ++ closing
       /\ multi_line = firstn 14 multi_line ++ skipn 14 (firstn 42 multi_line) ++ rest
       /\ length (firstn 14 multi_line) = 14
       /\ spec_match_here (skipn 14 multi_line)
          = Some (length (skipn 14 (firstn 42 multi_line))).
Proof.
  assert (In (14, skipn 14 (firstn 42 multi_line)) (matches_of multi_line)) as H
    by (vm_compute; left; reflexivity).
  split; [exact H|].
  exact (proj1 (matches_are_brace_free_spans multi_line) _ _ H).
Defined.

(** C3: for every match record, the line number is at least 1 and is the
    number of newline characters strictly before the start of the match,
    plus one; it is the number of the line on which the [initial={{] of the
    match lies, also when the body of the match runs over several lines. *)
Theorem line_num_is_line_of_opening (file content : text) (p : nat) (t : text) :
  In (p, t) (matches_of content) ->
  1 <= line_num content p
  /\ (exists pre rest,
        content = pre ++ t ++ rest /\ length pre = p
        /\ line_num content p = count newline pre + 1
        /\ record file content (p, t)
           = file ++ str ":" ++ str_of_nat (count newline pre + 1)
                  ++ str ": " ++ snippet t)
  /\ (exists above line below col,
        split_lines content = above ++ line :: below
        /\ line_num content p = length above + 1
        /\ p = offset_after above + col
        /\ firstn (length opening) (skipn col line) = opening).
Proof.
  intros Hin.
  destruct (matches_of_sound _ _ _ Hin) as (body & rest & Hb & -> & Hs & Hl).
  assert (length (firstn p content) = p) as Hp by (apply firstn_length_le; lia).
  assert (content = firstn p content ++ (opening ++ body ++ closing) ++ rest) as Hc
    by (rewrite <- Hs; symmetry; apply firstn_skipn).
  split; [unfold line_num; lia | split].
  - exists (firstn p content), rest. repeat split; auto.
  - destruct (line_of_word opening (body ++ closing ++ rest) opening_no_newline
                (firstn p content))
      as (above & line & below & col & Hsp & Hn & Ho & Hf).
    exists above, line, below, col. repeat split; auto.
    + rewrite Hc at 1. rewrite <- !app_assoc. exact Hsp.
    + unfold line_num. lia.
    + lia.
Qed.

Lemma line_num_is_line_of_opening_multi_line :
  In (14, skipn 14 (firstn 42 multi_line)) (matches_of multi_line)
  /\ 1 <= line_num multi_line 14.
Proof.
  assert (In (14, skipn 14 (firstn 42 multi_line)) (matches_of multi_line)) as H
    by (vm_compute; left; reflexivity).
  split; [exact H|].
  exact (proj1 (line_num_is_line_of_opening (str "a.tsx") multi_line _ _ H)).
Defined.



(** C9: the text [initial={{}}], with nothing between the braces, is never
    reported: no match is that text, no match starts where that text
    occurs, and the body of every match has at least one character, none
    of them [}]. *)
Theorem empty_body_never_reported (content : text) (p : nat) (t : text) :
  In (p, t) (matches_of content) ->
  t <> str "initial={{}}"
  /\ firstn 12 (skipn p content) <> str "initial={{}}"
  /\ exists body, body_ok body /\ t = opening ++ body ++ closing.
Proof.
  intros Hin.
  destruct (matches_of_sound _ _ _ Hin) as (body & rest & Hb & -> & Hs & Hl).
  destruct body as [|b body]; [destruct Hb; congruence|].
  pose proof (proj1 (body_ok_cons _ _) Hb) as [Hne _].
  repeat split.
  - intros E. injection E as E. contradiction.
  - rewrite Hs. intros E. injection E as E. contradiction.
  - exists (b :: body). split; [exact Hb | reflexivity].
Qed.

Lemma empty_body_never_reported_multi_line :
  In (14, skipn 14 (firstn 42 multi_line)) (matches_of multi_line)
  /\ skipn 14 (firstn 42 multi_line) <> str "initial={{}}".
Proof.
  assert (In (14, skipn 14 (firstn 42 multi_line)) (matches_of multi_line)) as H
    by (vm_compute; left; reflexivity).
  split; [exact H|].
  exact (proj1 (empty_body_never_reported multi_line _ _ H)).
Defined.

(** C10: every reported snippet begins with [initial={{] and has between 13
    and 80 characters; the matched text has at least 13. *)
Theorem snippet_bounds (content : text) (p : nat) (t : text) :
  In (p, t) (matches_of content) ->
  (exists tail, snippet t = opening ++ tail)
  /\ 13 <= length (snippet t) <= 80
  /\ 13 <= length t.
Proof.
  intros Hin.
  destruct (matches_of_sound _ _ _ Hin) as (body & rest & Hb & -> & _).
  assert (1 <= length body) as Hl.
  { destruct body; [destruct Hb; congruence | simpl; lia]. }
  pose proof (length_opening_body_closing body) as Hlen.
  repeat split.
  - exists (firstn 70 (body ++ closing)). unfold snippet.
    rewrite firstn_app. change (length opening) with 10. reflexivity.
  - rewrite length_snippet. lia.
  - rewrite length_snippet. lia.
  - lia.
Qed.

Lemma snippet_bounds_multi_line :
  In (14, skipn 14 (firstn 42 multi_line)) (matches_of multi_line)
  /\ 13 <= length (skipn 14 (firstn 42 multi_line)).
Proof.
  assert (In (14, skipn 14 (firstn 42 multi_line)) (matches_of multi_line)) as H
    by (vm_compute; left; reflexivity).
  split; [exact H|].
  exact (proj2 (proj2 (snippet_bounds multi_line _ _ H))).
Defined.

(** ** The report *)

Lemma matches_of_ascending (content : text) :
  StronglySorted lt (map fst (matches_of content)).
Proof.
  assert (forall l : list (nat * text),
             StronglySorted before l ->
             Forall (fun x => 1 <= length (snd x)) l ->
             StronglySorted lt (map fst l)) as Hgen.
  { induction 1 as [|a l Hs IH Ha]; intros Hlen; cbn [map]; [constructor|].
    inversion Hlen as [|? ? Hla Hll]; subst.
    constructor; [apply IH; assumption|].
    apply Forall_map. apply Forall_forall. intros b Hb.
    pose proof (proj1 (Forall_forall _ _) Ha b Hb) as Hab.
    unfold before in Hab. destruct a, b. cbn [fst snd] in *. lia. }
  apply Hgen; [apply matches_of_sorted|].
  apply Forall_forall. intros [p t] Hin. cbn [snd].
  destruct (matches_of_sound _ _ _ Hin) as (body & rest & _ & -> & _).
  rewrite length_opening_body_closing. lia.
Qed.

(** What the [if] branch writes. *)
Lemma report_nonempty (results : list text) :
  results <> [] ->
  report results
  = str "Found " ++ str_of_nat (length results)
    ++ str " remaining initial={} patterns:" ++ [newline; newline]
    ++ concat (map print results).
Proof.
  destruct results as [|r results]; [congruence | intros _].
  unfold report, print. rewrite <- !app_assoc. reflexivity.
Qed.

(** C2: on a directory with one usage the header reads
    [Found 1 remaining initial={} patterns:], with single braces: in the
    f-string [{{}}] stands for [{}]. The blank line and the record lines are
    as stated. *)
Theorem header_has_single_braces :
  stdout (main one_usage)
  = str "Found 1 remaining initial={} patterns:

a.tsx:1: initial={{a}}
"
  /\ stdout (main one_usage) <> spec_report [str "a.tsx:1: initial={{a}}"].
Proof. split; [reflexivity | vm_compute; discriminate]. Qed.

(** C4: when no file matches [*.tsx], or no file has a match, or the list of
    records is empty for any reason, the run prints exactly
    [No remaining initial={{}} patterns found!] and ends normally. *)
Theorem no_match_report (d : directory) :
  glob d = []
  \/ (forall e, In e (glob d) ->
        exists content, read e = Content content /\ matches_of content = [])
  \/ scan [] (glob d) = inr [] ->
  main d = Outcome (print (str "No remaining initial={{}} patterns found!")) None 0.
Proof.
  intros H.
  assert (scan [] (glob d) = inr []) as Hs.
  { destruct H as [H | [H | H]]; [rewrite H; reflexivity | | exact H].
    rewrite scan_readable.
    - cbn [app]. f_equal.
      induction (glob d) as [|e l IH]; [reflexivity|]. cbn [flat_map].
      destruct (H e (or_introl eq_refl)) as (content & Hr & Hm).
      unfold records_of at 1. rewrite Hr, Hm. cbn [map app].
      apply IH. intros e' He'. apply H. right. exact He'.
    - apply Forall_forall. intros e He.
      destruct (H e He) as (content & Hr & _). exists content. exact Hr. }
  unfold main. rewrite Hs. reflexivity.
Qed.

Lemma no_match_report_no_usage :
  (forall e, In e (glob no_usage) ->
     exists content, read e = Content content /\ matches_of content = [])
  /\ stdout (main no_usage) = print (str "No remaining initial={{}} patterns found!").
Proof.
  assert (forall e, In e (glob no_usage) ->
            exists content, read e = Content content /\ matches_of content = []) as H.
  { intros e [<- | []].
    exists (str "<div initial={{}} />"). split; reflexivity. }
  split; [exact H|].
  exact (f_equal stdout (no_match_report no_usage (or_intror (or_introl H)))).
Defined.

(** C6: the records are those of the listed [*.tsx] files, file after file
    in listing order, and the report prints them in that order; the records
    of one file follow its matches, whose start offsets increase. *)
Theorem records_follow_listing_then_offsets (d : directory) (results : list text) :
  scan [] (glob d) = inr results ->
  results = flat_map records_of (glob d)
  /\ (results <> [] ->
      exists header, stdout (main d) = header ++ concat (map print results))
  /\ (forall e content,
        In e (glob d) -> read e = Content content ->
        records_of e = map (record (name e) content) (matches_of content)
        /\ StronglySorted lt (map fst (matches_of content))).
Proof.
  intros Hs. split; [|split].
  - apply scan_inr in Hs. destruct Hs as [_ ->]. reflexivity.
  - intros Hne. unfold main. rewrite Hs. cbn [stdout].
    rewrite (report_nonempty _ Hne).
    exists (str "Found " ++ str_of_nat (length results)
            ++ str " remaining initial={} patterns:" ++ [newline; newline]).
    rewrite <- !app_assoc. reflexivity.
  - intros e content _ Hr. split; [|apply matches_of_ascending].
    unfold records_of. rewrite Hr. reflexivity.
Qed.

Lemma records_follow_listing_then_offsets_two_files :
  scan [] (glob two_files)
  = inr [str "b.tsx:1: initial={{b}}"; str "b.tsx:1: initial={{c}}";
         str "a.tsx:2: initial={{
  x: 1,
  y: 2
}}"]
  /\ flat_map records_of (glob two_files)
     = [str "b.tsx:1: initial={{b}}"; str "b.tsx:1: initial={{c}}";
        str "a.tsx:2: initial={{
  x: 1,
  y: 2
}}"].
Proof.
  assert (scan [] (glob two_files)
          = inr [str "b.tsx:1: initial={{b}}"; str "b.tsx:1: initial={{c}}";
                 str "a.tsx:2: initial={{
  x: 1,
  y: 2
}}"]) as H by reflexivity.
  split; [exact H|].
  symmetry. exact (proj1 (records_follow_listing_then_offsets two_files _ H)).
Defined.

(** C7: when a listed [*.tsx] file cannot be opened or decoded, the scan
    stops at the first such file with its exception, which nothing catches:
    nothing is printed and the exit status is not zero. *)
Theorem unreadable_file_fails_run (d : directory) :
  Exists (fun e => exists err, read e = Raises err) (glob d) ->
  stdout (main d) = []
  /\ exit_status (main d) <> 0
  /\ exists pre e post err,
       glob d = pre ++ e :: post /\ Forall readable pre
       /\ read e = Raises err /\ uncaught (main d) = Some err.
Proof.
  intros H.
  destruct (scan_raises (glob d) [] H) as (pre & e & post & err & Hg & Hp & He & Hs).
  unfold main. rewrite Hs. cbn [stdout exit_status uncaught].
  repeat split; [discriminate|].
  exists pre, e, post, err. auto.
Qed.

Lemma unreadable_file_fails_run_undecodable :
  Exists (fun e => exists err, read e = Raises err) (glob undecodable_file)
  /\ stdout (main undecodable_file) = []
  /\ exit_status (main undecodable_file) <> 0.
Proof.
  assert (Exists (fun e => exists err, read e = Raises err) (glob undecodable_file)) as H.
  { apply Exists_cons_tl. apply Exists_cons_hd. exists UnicodeDecodeError. reflexivity. }
  pose proof (unreadable_file_fails_run undecodable_file H) as (Ho & Hx & _).
  split; [exact H | split; [exact Ho | exact Hx]].
Defined.

(** ** Further properties of the script *)

(** *** The listing *)

Lemma ends_with_iff (suffix s : text) :
  ends_with suffix s = true <-> exists stem, s = stem ++ suffix.
Proof.
  unfold ends_with.
  destruct (list_eq_dec ascii_dec (skipn (length s - length suffix) s) suffix) as [E|E].
  - split; [intros _ | reflexivity].
    exists (firstn (length s - length suffix) s).
    rewrite <- E at 2. symmetry. apply firstn_skipn.
  - split; [discriminate|]. intros [stem ->]. exfalso. apply E.
    rewrite length_app, Nat.add_sub, skipn_app, skipn_all, Nat.sub_diag.
    reflexivity.
Qed.

(** X1: when the scan ends, its results are exactly the records of the
    matches found in the entries of the directory whose name ends with
    [.tsx]: every such match has its record in the results, and every
    result is the record of such a match. *)
Theorem results_are_records_of_tsx_files (d : directory) (results : list text) :
  scan [] (glob d) = inr results ->
  forall r,
    In r results <->
    exists e stem content m,
      In e d /\ name e = stem ++ str ".tsx"
      /\ read e = Content content /\ In m (matches_of content)
      /\ r = record (name e) content m.
Proof.
  intros Hs r. apply scan_inr in Hs. destruct Hs as [_ ->]. cbn [app].
  rewrite in_flat_map. split.
  - intros (e & He & Hr).
    apply filter_In in He. destruct He as [Hd Hn].
    apply ends_with_iff in Hn. destruct Hn as [stem Hn].
    unfold records_of in Hr. destruct (read e) as [content|err] eqn:E; [|contradiction].
    apply in_map_iff in Hr. destruct Hr as (m & <- & Hm).
    exists e, stem, content, m. auto.
  - intros (e & stem & content & m & Hd & Hn & Hc & Hm & ->).
    exists e. split.
    + apply filter_In. split; [exact Hd|]. apply ends_with_iff. eauto.
    + unfold records_of. rewrite Hc. apply in_map. exact Hm.
Qed.

Lemma results_are_records_of_tsx_files_one_usage :
  scan [] (glob one_usage) = inr [str "a.tsx:1: initial={{a}}"]
  /\ exists e stem content m,
       In e one_usage /\ name e = stem ++ str ".tsx"
       /\ read e = Content content /\ In m (matches_of content)
       /\ str "a.tsx:1: initial={{a}}" = record (name e) content m.
Proof.
  assert (scan [] (glob one_usage) = inr [str "a.tsx:1: initial={{a}}"]) as H
    by reflexivity.
  split; [exact H|].
  apply (proj1 (results_are_records_of_tsx_files one_usage _ H _)).
  left. reflexivity.
Defined.

(** X2: an entry whose name does not end with [.tsx] is never opened: the
    run is the same with it and without it, even when it cannot be read. *)
Theorem other_names_are_ignored (d1 d2 : directory) (e : entry) :
  ends_with (str ".tsx") (name e) = false ->
  main (d1 ++ e :: d2) = main (d1 ++ d2).
Proof.
  intros H. unfold main, glob. rewrite !filter_app. cbn [filter].
  rewrite H. reflexivity.
Qed.

Lemma other_names_are_ignored_readme :
  main ([] ++ Entry (str "README.md") (Raises OSError) :: two_files)
  = main ([] ++ two_files).
Proof.
  apply (other_names_are_ignored [] two_files (Entry (str "README.md") (Raises OSError))).
  reflexivity.
Defined.

(** *** The run *)

Lemma main_readable (d : directory) :
  Forall readable (glob d) ->
  main d = Outcome (report (flat_map records_of (glob d))) None 0.
Proof.
  intros H. unfold main. rewrite (scan_readable _ _ H). reflexivity.
Qed.

(** X3: the run ends with exit status 0 exactly when every listed [*.tsx]
    file can be read, whether or not it has matches; the output is then
    the report of the records of the files, file after file. *)
Theorem run_ends_normally_iff_readable (d : directory) :
  (exit_status (main d) = 0 <-> Forall readable (glob d))
  /\ (Forall readable (glob d) ->
      main d = Outcome (report (flat_map records_of (glob d))) None 0).
Proof.
  split; [split | apply main_readable].
  - unfold main. destruct (scan [] (glob d)) as [err|results] eqn:E.
    + cbn [exit_status]. discriminate.
    + intros _. apply scan_inr in E. apply E.
  - intros H. rewrite (main_readable d H). reflexivity.
Qed.

Lemma run_ends_normally_iff_readable_two_files :
  Forall readable (glob two_files) /\ exit_status (main two_files) = 0.
Proof.
  assert (Forall readable (glob two_files)) as H.
  { repeat constructor; eexists; reflexivity. }
  split; [exact H|].
  exact (proj2 (proj1 (run_ends_normally_iff_readable two_files)) H).
Defined.

Lemma length_records (files : list entry) :
  length (flat_map records_of files) = list_sum (map match_count files).
Proof.
  induction files as [|e files IH]; [reflexivity|].
  change (list_sum (map match_count (e :: files)))
    with (match_count e + list_sum (map match_count files)).
  cbn [flat_map]. rewrite length_app, IH. f_equal.
  unfold records_of, match_count. destruct (read e); [apply length_map | reflexivity].
Qed.

(** X4: when the files can be read and there is a match, the number in the
    header is the total number of matches in the listed files, and one
    line per match follows the header and the blank line. *)
Theorem header_counts_all_matches (d : directory) :
  Forall readable (glob d) ->
  0 < list_sum (map match_count (glob d)) ->
  stdout (main d)
  = str "Found " ++ str_of_nat (list_sum (map match_count (glob d)))
    ++ str " remaining initial={} patterns:" ++ [newline; newline]
    ++ concat (map print (flat_map records_of (glob d)))
  /\ length (flat_map records_of (glob d)) = list_sum (map match_count (glob d)).
Proof.
  intros Hr Hn. split; [|apply length_records].
  rewrite (main_readable d Hr). cbn [stdout].
  rewrite report_nonempty, length_records; [reflexivity|].
  intros E. apply (f_equal (@length _)) in E.
  rewrite length_records in E. simpl in E. lia.
Qed.

Lemma header_counts_all_matches_two_files :
  Forall readable (glob two_files)
  /\ 0 < list_sum (map match_count (glob two_files))
  /\ length (flat_map records_of (glob two_files))
     = list_sum (map match_count (glob two_files)).
Proof.
  assert (Forall readable (glob two_files)) as H.
  { repeat constructor; eexists; reflexivity. }
  assert (0 < list_sum (map match_count (glob two_files))) as Hn
    by (vm_compute; lia).
  split; [exact H | split; [exact Hn|]].
  exact (proj2 (header_counts_all_matches two_files H Hn)).
Defined.

(** X5: the list of results only grows: a scan that starts from earlier
    results keeps them, in order, in front of what the same scan gives from
    the empty list, and fails with the same exception when that one fails. *)
Theorem scan_keeps_results (files : list entry) : forall results,
  scan results files
  = match scan [] files with
    | inl err => inl err
    | inr found => inr (results ++ found)
    end.
Proof.
  induction files as [|e files IH]; intros results; cbn [scan].
  - rewrite app_nil_r. reflexivity.
  - unfold scan_file. destruct (read e) as [content|err]; [|reflexivity].
    rewrite !fold_left_append. cbn [app].
    rewrite (IH (results ++ _)), (IH (map _ _)).
    destruct (scan [] files); [reflexivity|].
    rewrite app_assoc. reflexivity.
Qed.

(** *** The matches *)

(** X6: a text of fewer than 13 characters, and a text without any [}], has
    no match: such a file adds nothing to the report. *)
Theorem no_match_without_closing (content : text) :
  length content < 13 \/ ~ In close_brace content ->
  matches_of content = [].
Proof.
  intros H. destruct (matches_of content) as [|[p t] l] eqn:E; [reflexivity|].
  exfalso.
  assert (In (p, t) (matches_of content)) as Hin by (rewrite E; left; reflexivity).
  destruct (matches_of_sound _ _ _ Hin) as (body & rest & Hb & -> & Hs & Hl).
  rewrite length_opening_body_closing in Hl.
  assert (1 <= length body) as Hbody.
  { destruct body; [destruct Hb; congruence | simpl; lia]. }
  unfold text in *.
  destruct H as [H | H]; [lia|]. apply H.
  rewrite <- (firstn_skipn p content), Hs.
  apply in_or_app. right. apply in_or_app. left.
  apply in_or_app. right. apply in_or_app. right. left. reflexivity.
Qed.

Lemma no_match_without_closing_short :
  length (str "initial={{}}") < 13 /\ matches_of (str "initial={{}}") = [].
Proof.
  assert (length (str "initial={{}}") < 13) as H by (vm_compute; lia).
  split; [exact H|].
  exact (no_match_without_closing (str "initial={{}}") (or_introl H)).
Defined.

Section SearchOffsets.

Variable m : text -> option nat.

(** Offsets are relative to where the search started. *)
Lemma search_shift (s : text) : forall skip pos k,
  Re.search m skip (k + pos) s = map (shift k) (Re.search m skip pos s).
Proof.
  induction s as [|c s IH]; intros skip pos k; cbn [Re.search].
  - destruct skip; [|reflexivity]. destruct (m []); reflexivity.
  - destruct skip as [|skip].
    + destruct (m (c :: s)) as [n|]; cbn [map]; rewrite <- Nat.add_succ_r, IH; reflexivity.
    + rewrite <- Nat.add_succ_r. apply IH.
Qed.

(** Passing the characters of a match is resuming at its end. *)
Lemma search_skip (s : text) : forall skip pos,
  skip <= length s ->
  Re.search m skip pos s = Re.search m 0 (pos + skip) (skipn skip s).
Proof.
  induction s as [|c s IH]; intros skip pos H.
  - cbn [length] in H. replace skip with 0 by lia.
    rewrite Nat.add_0_r. reflexivity.
  - destruct skip as [|skip].
    + rewrite Nat.add_0_r. reflexivity.
    + cbn [Re.search skipn]. cbn [length] in H.
      rewrite IH by lia. f_equal. lia.
Qed.

End SearchOffsets.

(** X7: the search resumes right after a match: the matches of a text that
    starts with a usage are that usage, at offset 0, and then the matches of
    the rest of the text, moved by the length of the usage. A character that
    is not [i] starts no match and moves the matches of the rest by one. *)
Theorem matches_resume_after_match (body rest : text) (c : ascii) :
  (body_ok body ->
   matches_of (opening ++ body ++ closing ++ rest)
   = (0, opening ++ body ++ closing)
     :: map (shift (length (opening ++ body ++ closing))) (matches_of rest))
  /\ (c <> "i"%char ->
      matches_of (c :: rest) = map (shift 1) (matches_of rest)).
Proof.
  split.
  - intros Hb.
    assert (Re.match_here pattern (opening ++ body ++ closing ++ rest)
            = Some (length (opening ++ body ++ closing))) as Hm
      by (apply match_here_pattern; eauto).
    assert (opening ++ body ++ closing ++ rest
            = (opening ++ body ++ closing) ++ rest) as Hassoc
      by (rewrite <- !app_assoc; reflexivity).
    assert (1 <= length (opening ++ body ++ closing)) as Hlen
      by (rewrite length_opening_body_closing; lia).
    unfold matches_of, Re.finditer.
    remember (opening ++ body ++ closing) as t eqn:Et.
    rewrite Hassoc in *. clear Hassoc.
    destruct t as [|x t]; [simpl in Hlen; lia|].
    cbn [app Re.search]. cbn [app] in Hm. rewrite Hm.
    f_equal.
    + f_equal. change (x :: t ++ rest) with ((x :: t) ++ rest).
      apply firstn_length_app.
    + cbn [length Nat.sub]. rewrite Nat.sub_0_r.
      rewrite search_skip by (rewrite length_app; lia).
      rewrite skipn_app, skipn_all, Nat.sub_diag. cbn [app skipn].
      replace (1 + length t) with (S (length t) + 0) by lia.
      apply search_shift.
  - intros Hc. unfold matches_of, Re.finditer. cbn [Re.search].
    assert (Re.match_here pattern (c :: rest) = None) as ->.
    { change pattern with (Re.One (Re.Chr "i"%char)
                             :: Re.lit (str "nitial={{")
                             ++ [Re.Plus (Re.NotChr close_brace)] ++ Re.lit closing).
      cbn [Re.match_here Re.atom_matches].
      destruct (Ascii.eqb_spec c "i"%char); [contradiction | reflexivity]. }
    apply (search_shift _ rest 0 0 1).
Qed.

Lemma matches_resume_after_match_three_usages :
  body_ok (str "a")
  /\ matches_of three_usages
     = (0, str "initial={{a}}")
       :: map (shift 13) (matches_of (skipn 13 three_usages)).
Proof.
  assert (body_ok (str "a")) as H
    by (split; [discriminate | repeat constructor; discriminate]).
  split; [exact H|].
  exact (proj1 (matches_resume_after_match (str "a") (skipn 13 three_usages) "x"%char) H).
Defined.

(** *** Line numbers *)

Lemma count_app (c : ascii) (a b : text) :
  count c (a ++ b) = count c a + count c b.
Proof.
  induction a as [|d a IH]; [reflexivity|].
  cbn [app count]. rewrite IH. lia.
Qed.

Lemma length_split_lines (s : text) :
  length (split_lines s) = count newline s + 1.
Proof.
  induction s as [|c s IH]; [reflexivity|].
  cbn [split_lines count].
  destruct (Ascii.eqb c newline); cbn [length]; [lia|].
  destruct (split_lines s); cbn [length] in *; lia.
Qed.

Lemma line_num_monotone (content : text) (p q : nat) :
  p <= q -> line_num content p <= line_num content q.
Proof.
  intros H. unfold line_num.
  rewrite <- (firstn_skipn p (firstn q content)), firstn_firstn, count_app.
  rewrite (Nat.min_l _ _ H). lia.
Qed.

(** X8: for any offset, the line number is between 1 and the number of lines
    of the text, it does not decrease when the offset grows, and an offset
    at or past the end of the text is on the last line. *)
Theorem line_num_within_lines (content : text) (p q : nat) :
  1 <= line_num content p <= length (split_lines content)
  /\ (p <= q -> line_num content p <= line_num content q)
  /\ (length content <= p -> line_num content p = length (split_lines content)).
Proof.
  rewrite length_split_lines. repeat split.
  - unfold line_num. lia.
  - unfold line_num. rewrite <- (firstn_skipn p content) at 2.
    rewrite count_app. lia.
  - apply line_num_monotone.
  - intros H. unfold line_num. rewrite firstn_all2 by exact H. reflexivity.
Qed.

Lemma line_num_within_lines_three_usages :
  14 <= 45 /\ line_num three_usages 14 <= line_num three_usages 45.
Proof.
  assert (14 <= 45) as H by lia.
  split; [exact H|].
  exact (proj1 (proj2 (line_num_within_lines three_usages 14 45)) H).
Defined.

(** X9: the records of one file come with line numbers that never decrease:
    a later record of the file is on the same line or further down. *)
Theorem line_numbers_never_decrease (content : text) :
  StronglySorted le (map (fun m => line_num content (fst m)) (matches_of content)).
Proof.
  pose proof (matches_of_ascending content) as H.
  induction (matches_of content) as [|a l IH]; cbn [map] in *; [constructor|].
  inversion H as [|? ? Hs Ha]; subst.
  constructor; [apply IH; exact Hs|].
  apply Forall_map. apply (proj1 (Forall_map fst _ l)) in Ha.
  apply Forall_forall. intros b Hb.
  pose proof (proj1 (Forall_forall _ _) Ha b Hb) as Hab. cbn beta in Hab.
  apply line_num_monotone. lia.
Qed.

(** *** Snippets *)

(** X10: a snippet ends with [}}] exactly when the match had at most 80
    characters: a snippet that was cut never shows the closing braces. *)
Theorem snippet_shows_closing_iff_whole (content : text) (p : nat) (t : text) :
  In (p, t) (matches_of content) ->
  (ends_with closing (snippet t) = true <-> length t <= 80).
Proof.
  intros Hin.
  destruct (matches_of_sound _ _ _ Hin) as (body & rest & Hb & -> & _).
  pose proof (length_opening_body_closing body) as Hlen.
  split.
  - intros He. destruct (le_lt_dec (length (opening ++ body ++ closing)) 80) as [|Hl];
      [assumption | exfalso].
    apply ends_with_iff in He. destruct He as [stem He].
    assert (length stem = 78) as Hstem.
    { apply (f_equal (@length _)) in He.
      rewrite length_snippet, Hlen, length_app in He.
      change (length closing) with 2 in He. rewrite Hlen in Hl. lia. }
    assert (nth_error (snippet (opening ++ body ++ closing)) 78 = Some close_brace) as Hn.
    { rewrite He, nth_error_app2, Hstem by lia. reflexivity. }
    unfold snippet in Hn. rewrite nth_error_firstn in Hn.
    cbn [Nat.ltb Nat.leb] in Hn.
    rewrite nth_error_app2 in Hn by (simpl; lia).
    rewrite nth_error_app1 in Hn by (simpl in *; lia).
    apply nth_error_In in Hn. destruct Hb as [_ Hb].
    apply (proj1 (Forall_forall _ _) Hb) in Hn. congruence.
  - intros Hl. unfold snippet. rewrite firstn_all2 by exact Hl.
    apply ends_with_iff. exists (opening ++ body).
    rewrite <- app_assoc. reflexivity.
Qed.

Lemma snippet_shows_closing_iff_whole_long_usage :
  In (0, long_usage) (matches_of long_usage)
  /\ ~ ends_with closing (snippet long_usage) = true.
Proof.
  assert (In (0, long_usage) (matches_of long_usage)) as H
    by (vm_compute; left; reflexivity).
  split; [exact H|].
  intros He.
  pose proof (proj1 (snippet_shows_closing_iff_whole long_usage 0 long_usage H) He) as Hl.
  vm_compute in Hl. lia.
Defined.

(** *** The report and the run *)

(** X11: when the files can be read, the none-found message is printed
    exactly when no file has a match. *)
Theorem none_found_iff_no_match (d : directory) :
  Forall readable (glob d) ->
  (stdout (main d) = print (str "No remaining initial={{}} patterns found!")
   <-> list_sum (map match_count (glob d)) = 0).
Proof.
  intros Hr. rewrite (main_readable d Hr). cbn [stdout].
  rewrite <- length_records.
  destruct (flat_map records_of (glob d)) as [|r results] eqn:E.
  - split; reflexivity.
  - split; [|discriminate]. intros H.
    rewrite report_nonempty in H by discriminate.
    cbn in H. discriminate.
Qed.

Lemma none_found_iff_no_match_no_usage :
  Forall readable (glob no_usage)
  /\ stdout (main no_usage) = print (str "No remaining initial={{}} patterns found!").
Proof.
  assert (Forall readable (glob no_usage)) as H.
  { repeat constructor; eexists; reflexivity. }
  split; [exact H|].
  exact (proj2 (none_found_iff_no_match no_usage H) eq_refl).
Defined.

(** *** The engine, for any pattern of the fragment *)

Lemma match_plus_bounds (a : Re.atom) (k : text -> option nat) :
  (forall s n, k s = Some n -> n <= length s) ->
  forall s n, Re.match_plus a k s = Some n -> 1 <= n <= length s.
Proof.
  intros Hk. induction s as [|c s IH]; intros n H; cbn [Re.match_plus] in H.
  - discriminate.
  - destruct (Re.atom_matches a c); [|discriminate].
    destruct (Re.match_plus a k s) as [n'|].
    + injection H as <-. specialize (IH _ eq_refl). cbn [length]. lia.
    + destruct (k s) as [n'|] eqn:E; [|discriminate].
      injection H as <-. apply Hk in E. cbn [length]. lia.
Qed.

Lemma match_here_bounds (r : Re.regex) : forall s n,
  Re.match_here r s = Some n -> n <= length s /\ (r <> [] -> 1 <= n).
Proof.
  induction r as [|[a|a] r IH]; intros s n H; cbn [Re.match_here] in H.
  - injection H as <-. split; [lia | congruence].
  - destruct s as [|c s]; [discriminate|].
    destruct (Re.atom_matches a c); [|discriminate].
    destruct (Re.match_here r s) as [n'|] eqn:E; [|discriminate].
    injection H as <-. apply IH in E. cbn [length]. split; lia.
  - apply match_plus_bounds in H; [split; lia|].
    intros s' n' H'. apply IH in H'. apply H'.
Qed.

(** X12: for every pattern of the fragment other than the empty one, the
    matches that [finditer] reports are non-empty pieces of the text, each
    one where the pattern matches at its offset, in increasing offsets and
    without overlap. *)
Theorem finditer_matches_in_text (r : Re.regex) (s : text) :
  r <> [] ->
  (forall p t, In (p, t) (Re.finditer r s) ->
     t <> [] /\ p + length t <= length s
     /\ t = firstn (length t) (skipn p s)
     /\ Re.match_here r (skipn p s) = Some (length t))
  /\ StronglySorted before (Re.finditer r s).
Proof.
  intros Hr.
  assert (forall s n, Re.match_here r s = Some n -> 1 <= n <= length s) as Hb.
  { intros s' n H. apply match_here_bounds in H. destruct H as [H1 H2].
    specialize (H2 Hr). lia. }
  split; [|apply (search_sorted _ Hb)].
  intros p t Hin. apply (search_sound _ Hb) in Hin.
  destruct Hin as (k & -> & _ & Hm & Ht). cbn [Nat.add].
  pose proof (Hb _ _ Hm) as Hl. rewrite length_skipn in Hl.
  repeat split; auto; [|lia].
  intros ->. simpl in Hl. lia.
Qed.

Lemma finditer_matches_in_text_literal :
  Re.lit (str "ab") <> []
  /\ StronglySorted before (Re.finditer (Re.lit (str "ab")) (str "xabab")).
Proof.
  assert (Re.lit (str "ab") <> []) as H by discriminate.
  split; [exact H|].
  exact (proj2 (finditer_matches_in_text (Re.lit (str "ab")) (str "xabab") H)).
Defined.
